(** * Wafer map maker: the grid-point generator of [map_maker.py]

    A shallow embedding of [compute_points], of its two exclusion tests
    [is_inside_exclusion] and [is_inside_rects], and of the pixel-to-wafer
    transform applied to the rectangles drawn on the canvas.

    Numbers.  The Python code computes on binary64 floats.  Here every
    number is an exact rational ([Q]): [+], [-], [*], [/] and [<=] are the
    exact operations and rounding, infinities and NaN are not modelled.
    Equality of coordinates is [Qeq] ([==]).  Every concrete input used
    below is a small dyadic number on which the float computation is exact,
    so the evaluations shown are also what the Python code returns.

    Errors.  The only operation of [compute_points] that can raise is
    [np.arange] with a zero step; a raised exception is [None]. *)

From Stdlib Require Import QArith Qround Lqa ZArith Lia List String Bool.
From Stdlib Require Import Sorted SetoidList.
Import ListNotations.
Local Open Scope Q_scope.

(** ** Data *)

(** A point [(x, y)] of the wafer plane, in mm. *)
Definition point : Type := Q * Q.

(** A circular exclusion zone, the tuple [(ex[0], ex[1], ex[2])]:
    centre and radius. *)
Definition circle_zone : Type := Q * Q * Q.

(** A rectangular exclusion zone, the tuple [(rx, ry, rw, rh)]. *)
Definition rect_zone : Type := Q * Q * Q * Q.

(** Componentwise equality of points. *)
Definition point_eq (p q : point) : Prop :=
  fst p == fst q /\ snd p == snd q.

(** Membership of a point in a sequence, up to [point_eq]. *)
Definition InQ (p : point) (l : list point) : Prop :=
  exists q, In q l /\ point_eq p q.

(** ** A small error monad: [None] is a raised exception *)

Definition bind {A B : Type} (c : option A) (k : A -> option B) : option B :=
  match c with
  | Some a => k a
  | None => None
  end.

Notation "x <- c ;; k" := (bind c (fun x => k))
  (at level 61, c at next level, right associativity).

(** ** The utility functions *)

(** [any((x-ex[0])**2 + (y-ex[1])**2 <= ex[2]**2 for ex in zones)] *)
Definition is_inside_exclusion (x y : Q) (zones : list circle_zone) : bool :=
  existsb (fun ex : circle_zone =>
             let '(ex0, ex1, ex2) := ex in
             Qle_bool ((x - ex0) ^ 2 + (y - ex1) ^ 2) (ex2 ^ 2))
          zones.

(** [any((x >= rx and x <= rx + rw and y >= ry and y <= ry + rh)
         for (rx, ry, rw, rh) in rects)] *)
Definition is_inside_rects (x y : Q) (rects : list rect_zone) : bool :=
  existsb (fun r : rect_zone =>
             let '(rx, ry, rw, rh) := r in
             Qle_bool rx x && Qle_bool x (rx + rw)
             && Qle_bool ry y && Qle_bool y (ry + rh))
          rects.

(** [np.arange(start, stop, step)] on exact numbers: the values
    [start + i * step] for [0 <= i < ceil((stop - start) / step)], none
    when that length is not positive; a zero step raises. *)
Definition arange (start stop step : Q) : option (list Q) :=
  if Qeq_bool step 0 then None
  else
    let len := Z.to_nat (Qceiling ((stop - start) / step)) in
    Some (map (fun i : nat => start + inject_Z (Z.of_nat i) * step)
              (seq 0 len)).

(** ** [compute_points] *)

Section Loops.

Variables wafer_radius edge_exclusion spacing_y : Q.
Variable exclusion_zones : list circle_zone.
Variable drawable_rects : list rect_zone.

(** The condition of the [if] guarding [points.append((x, y))], written
    twice in the source (once per grid type) with the same text. *)
Definition point_accepted (x y : Q) : bool :=
  let r2 := x ^ 2 + y ^ 2 in
  Qle_bool r2 (wafer_radius ^ 2)
  && Qle_bool r2 ((wafer_radius - edge_exclusion) ^ 2)
  && negb (is_inside_exclusion x y exclusion_zones)
  && negb (is_inside_rects x y drawable_rects).

(** [for y in y_range: if ...: points.append((x, y))] *)
Fixpoint for_y (x : Q) (y_range : list Q) (points : list point)
  : list point :=
  match y_range with
  | [] => points
  | y :: rest =>
      for_y x rest
            (if point_accepted x y then points ++ [(x, y)] else points)
  end.

(** Rectangular: [for x in x_range: for y in y_range: ...] *)
Fixpoint for_x_rect (x_range y_range : list Q) (points : list point)
  : list point :=
  match x_range with
  | [] => points
  | x :: rest => for_x_rect rest y_range (for_y x y_range points)
  end.

(** The start of the Y range of column [i] of the hexagonal grid:
    [-wafer_radius + spacing_y/2 + offset] with
    [offset = 0 if i % 2 == 0 else spacing_y / 2]. *)
Definition hex_y_start (i : nat) : Q :=
  let offset := if (i mod 2 =? 0)%nat then 0 else spacing_y / 2 in
  - wafer_radius + spacing_y / 2 + offset.

(** Hexagonal: [for i, x in enumerate(x_range): ...], the Y range being
    rebuilt for every column. *)
Fixpoint for_x_hex (i : nat) (x_range : list Q) (points : list point)
  : option (list point) :=
  match x_range with
  | [] => Some points
  | x :: rest =>
      y_range <- arange (hex_y_start i) wafer_radius spacing_y ;;
      for_x_hex (S i) rest (for_y x y_range points)
  end.

End Loops.

Definition Rectangular : string := "Rectangular".
Definition Hexagonal : string := "Hexagonal".

(** [compute_points]: the accepted points in generation order and their
    number.  Any [grid_type] other than ["Rectangular"] takes the
    hexagonal branch, as the [else] of the source does. *)
Definition compute_points
    (wafer_diameter edge_exclusion : Q) (grid_type : string)
    (spacing_x spacing_y : Q)
    (exclusion_zones : list circle_zone) (drawable_rects : list rect_zone)
  : option (list point * nat) :=
  let wafer_radius := wafer_diameter / 2 in
  points <-
    (if String.eqb grid_type "Rectangular" then
       x_range <- arange (- wafer_radius + spacing_x / 2) wafer_radius spacing_x ;;
       y_range <- arange (- wafer_radius + spacing_y / 2) wafer_radius spacing_y ;;
       Some (for_x_rect wafer_radius edge_exclusion
                        exclusion_zones drawable_rects x_range y_range [])
     else
       x_range <- arange (- wafer_radius + spacing_x / 2) wafer_radius spacing_x ;;
       for_x_hex wafer_radius edge_exclusion spacing_y
                 exclusion_zones drawable_rects 0 x_range []) ;;
  Some (points, List.length points).

(** ** The rectangles drawn on the canvas *)

Definition CANVAS_SIZE : Q := 400.

(** An object of [canvas_result.json_data["objects"]]: its ["type"] and
    its pixel box. *)
Record canvas_object : Type := {
  obj_type : string;
  obj_left : Q;
  obj_top : Q;
  obj_width : Q;
  obj_height : Q
}.

(** The body of the extraction loop for one object of type ["rect"]. *)
Definition rect_of_object (wafer_diameter : Q) (obj : canvas_object)
  : rect_zone :=
  let wafer_radius := wafer_diameter / 2 in
  let x := obj_left obj * wafer_diameter / CANVAS_SIZE - wafer_radius in
  let w := obj_width obj * wafer_diameter / CANVAS_SIZE in
  let h := obj_height obj * wafer_diameter / CANVAS_SIZE in
  let y_top_canvas := obj_top obj * wafer_diameter / CANVAS_SIZE in
  let y_flipped := wafer_diameter - y_top_canvas - h - wafer_radius in
  (x, y_flipped, w, h).

(** The extraction loop: [json_data] may be [None]; only the objects
    whose type is ["rect"] give a zone. *)
Definition extract_rects (wafer_diameter : Q)
    (json_data : option (list canvas_object)) : list rect_zone :=
  match json_data with
  | None => []
  | Some objects =>
      map (rect_of_object wafer_diameter)
          (filter (fun obj => String.eqb (obj_type obj) "rect") objects)
  end.

(** ** Specification-side notions *)

(** The preconditions of the generator. *)
Definition valid_input (wafer_diameter edge_exclusion spacing_x spacing_y : Q)
  : Prop :=
  0 < wafer_diameter /\ 0 <= edge_exclusion /\ 0 < spacing_x /\ 0 < spacing_y.

(** The four acceptance predicates, as propositions on a point. *)
Definition inside_wafer (radius : Q) (p : point) : Prop :=
  fst p ^ 2 + snd p ^ 2 <= radius ^ 2.

Definition inside_edge_boundary (radius edge_exclusion : Q) (p : point)
  : Prop :=
  fst p ^ 2 + snd p ^ 2 <= (radius - edge_exclusion) ^ 2.

Definition in_circle (p : point) (z : circle_zone) : Prop :=
  let '(ex, ey, er) := z in
  (fst p - ex) ^ 2 + (snd p - ey) ^ 2 <= er ^ 2.

Definition in_rect (p : point) (z : rect_zone) : Prop :=
  let '(rx, ry, rw, rh) := z in
  rx <= fst p /\ fst p <= rx + rw /\ ry <= snd p /\ snd p <= ry + rh.

Definition outside_circles (zones : list circle_zone) (p : point) : Prop :=
  forall z, In z zones -> ~ in_circle p z.

Definition outside_rects (rects : list rect_zone) (p : point) : Prop :=
  forall z, In z rects -> ~ in_rect p z.

Definition acceptable (radius edge_exclusion : Q)
    (zones : list circle_zone) (rects : list rect_zone) (p : point) : Prop :=
  inside_wafer radius p
  /\ inside_edge_boundary radius edge_exclusion p
  /\ outside_circles zones p
  /\ outside_rects rects p.

(** [ys] is the arithmetic progression that starts at [start], advances by
    [step] and holds exactly the terms strictly below [stop]. *)
Definition progression (start step stop : Q) (ys : list Q) : Prop :=
  (forall j, (j < List.length ys)%nat ->
             nth j ys 0 == start + inject_Z (Z.of_nat j) * step
             /\ nth j ys 0 < stop)
  /\ stop <= start + inject_Z (Z.of_nat (List.length ys)) * step.

(** A subsequence: some elements dropped, the order of the others kept. *)
Inductive subseq {A : Type} : list A -> list A -> Prop :=
| subseq_nil : subseq [] []
| subseq_skip : forall a l1 l2, subseq l1 l2 -> subseq l1 (a :: l2)
| subseq_keep : forall a l1 l2, subseq l1 l2 -> subseq (a :: l1) (a :: l2).

(** ** The loops as a filter over the candidate sequence *)

(** The candidates of one column: [x] paired with each [y] of the range. *)
Definition column (x : Q) (y_range : list Q) : list point :=
  map (pair x) y_range.

(** The guard of the loops, on a point. *)
Definition keep (wafer_radius edge_exclusion : Q)
    (exclusion_zones : list circle_zone) (drawable_rects : list rect_zone)
    (p : point) : bool :=
  point_accepted wafer_radius edge_exclusion exclusion_zones drawable_rects
                 (fst p) (snd p).

(** The candidates visited by the rectangular loops, in visiting order. *)
Definition rect_candidates (x_range y_range : list Q) : list point :=
  flat_map (fun x => column x y_range) x_range.

(** The Y ranges built by the hexagonal loop for the columns [i], [i+1],
    ... of [x_range]; [None] when one of them raises. *)
Fixpoint hex_y_ranges (wafer_radius spacing_y : Q) (i : nat)
    (x_range : list Q) : option (list (list Q)) :=
  match x_range with
  | [] => Some []
  | _ :: rest =>
      y_range <- arange (hex_y_start wafer_radius spacing_y i)
                        wafer_radius spacing_y ;;
      more <- hex_y_ranges wafer_radius spacing_y (S i) rest ;;
      Some (y_range :: more)
  end.

(** The candidates visited by the hexagonal loops, given the Y range of
    each column. *)
Definition hex_candidates (x_range : list Q) (y_ranges : list (list Q))
  : list point :=
  flat_map (fun c : Q * list Q => column (fst c) (snd c))
           (combine x_range y_ranges).

(** The candidate sequence of [compute_points]: it depends on the wafer,
    the grid type and the spacings only. *)
Definition candidates (wafer_radius : Q) (grid_type : string)
    (spacing_x spacing_y : Q) : option (list point) :=
  if String.eqb grid_type "Rectangular" then
    x_range <- arange (- wafer_radius + spacing_x / 2) wafer_radius spacing_x ;;
    y_range <- arange (- wafer_radius + spacing_y / 2) wafer_radius spacing_y ;;
    Some (rect_candidates x_range y_range)
  else
    x_range <- arange (- wafer_radius + spacing_x / 2) wafer_radius spacing_x ;;
    y_ranges <- hex_y_ranges wafer_radius spacing_y 0 x_range ;;
    Some (hex_candidates x_range y_ranges).



(** Componentwise equality of rectangular zones. *)
Definition rect_eq (a b : rect_zone) : Prop :=
  let '(ax, ay, aw, ah) := a in
  let '(bx, by_, bw, bh) := b in
  ax == bx /\ ay == by_ /\ aw == bw /\ ah == bh.

(** The rectangular-zone transform, in the words of the specification:
    from the pixel box [(left, top, width, height)] on a square canvas of
    side [canvasSize] to the wafer-plane zone [(x, y, w, h)]. *)
Definition spec_rect_transform (canvasSize diameter : Q)
    (left top width height : Q) : rect_zone :=
  let radius := diameter / 2 in
  let x := left * diameter / canvasSize - radius in
  let w := width * diameter / canvasSize in
  let h := height * diameter / canvasSize in
  let yTopWaferPlane := top * diameter / canvasSize in
  let y := diameter - yTopWaferPlane - h - radius in
  (x, y, w, h).


(** Halves as the constant [1 # 2], for linear arithmetic. *)
Ltac qhalf := unfold Qdiv in *; change (/ 2) with (1 # 2) in *.

(** ** The callers of [compute_points] *)

(** [total_time = num_points * (measurement_time + move_time)] *)
Definition total_time (num_points : nat) (measurement_time move_time : Q)
  : Q :=
  inject_Z (Z.of_nat num_points) * (measurement_time + move_time).

(** The estimate shown at the top of the page: the number of points and
    the total time, from the current parameters. *)
Definition estimate
    (wafer_diameter edge_exclusion : Q) (grid_type : string)
    (spacing_x spacing_y measurement_time move_time : Q)
    (exclusion_zones : list circle_zone) (drawable_rects : list rect_zone)
  : option (nat * Q) :=
  r <- compute_points wafer_diameter edge_exclusion grid_type
                      spacing_x spacing_y exclusion_zones drawable_rects ;;
  let num_points := snd r in
  Some (num_points, total_time num_points measurement_time move_time).

(** The points drawn on the background of the canvas: the grid with the
    circular zones and no rectangle,
    [compute_points(..., exclusion_zones, [])]. *)
Definition points_for_bg
    (wafer_diameter edge_exclusion : Q) (grid_type : string)
    (spacing_x spacing_y : Q) (exclusion_zones : list circle_zone)
  : option (list point) :=
  r <- compute_points wafer_diameter edge_exclusion grid_type
                      spacing_x spacing_y exclusion_zones [] ;;
  Some (fst r).

(** ** Further specification-side notions *)

(** The order of generation: by [x], then by [y]. *)
Definition lex_lt (p q : point) : Prop :=
  fst p < fst q \/ (fst p == fst q /\ snd p < snd q).


(** A circular zone with the sign of its radius changed. *)
Definition flip_radius (z : circle_zone) : circle_zone :=
  let '(ex, ey, er) := z in (ex, ey, - er).





(** * Lemmas *)

(** ** Integers among the rationals *)

Lemma inject_Z_of_nat_nonneg (n : nat) : 0 <= inject_Z (Z.of_nat n).
Proof.
  change 0 with (inject_Z 0). rewrite <- Zle_Qle. lia.
Qed.

(** ** [np.arange] *)

Lemma arange_some (start stop step : Q) :
  ~ step == 0 ->
  arange start stop step =
  Some (map (fun i : nat => start + inject_Z (Z.of_nat i) * step)
            (seq 0 (Z.to_nat (Qceiling ((stop - start) / step))))).
Proof.
  intros Hstep. unfold arange.
  destruct (Qeq_bool step 0) eqn:E; [ | reflexivity ].
  apply Qeq_bool_eq in E. contradiction.
Qed.

Lemma arange_length (start stop step : Q) (ys : list Q) :
  arange start stop step = Some ys ->
  List.length ys = Z.to_nat (Qceiling ((stop - start) / step)).
Proof.
  unfold arange. destruct (Qeq_bool step 0); [ discriminate | ].
  intros H. injection H as <-. rewrite length_map, length_seq. reflexivity.
Qed.

Lemma arange_nth (start stop step : Q) (ys : list Q) (j : nat) :
  arange start stop step = Some ys ->
  (j < List.length ys)%nat ->
  nth j ys 0 = start + inject_Z (Z.of_nat j) * step.
Proof.
  intros H Hj. pose proof (arange_length _ _ _ _ H) as Hlen.
  unfold arange in H. destruct (Qeq_bool step 0); [ discriminate | ].
  injection H as <-.
  set (f := fun i : nat => start + inject_Z (Z.of_nat i) * step) in *.
  transitivity (nth j (map f (seq 0 (Z.to_nat (Qceiling ((stop - start) / step)))))
                    (f 0%nat)).
  - apply nth_indep. exact Hj.
  - rewrite (map_nth f). rewrite seq_nth; [ reflexivity | ].
    rewrite length_map, length_seq in Hj. exact Hj.
Qed.

(** Below the length, a term is strictly below [stop]. *)
Lemma ceiling_above (q : Q) (j : nat) :
  (j < Z.to_nat (Qceiling q))%nat -> inject_Z (Z.of_nat j) < q.
Proof.
  intros Hj.
  apply Qle_lt_trans with (inject_Z (Qceiling q - 1)); [ | apply Qceiling_lt ].
  rewrite <- Zle_Qle. lia.
Qed.

(** At the length, the progression has reached [stop]. *)
Lemma ceiling_below (q : Q) : q <= inject_Z (Z.of_nat (Z.to_nat (Qceiling q))).
Proof.
  apply Qle_trans with (inject_Z (Qceiling q)); [ apply Qle_ceiling | ].
  rewrite <- Zle_Qle. lia.
Qed.

Lemma arange_progression (start stop step : Q) :
  0 < step ->
  exists ys, arange start stop step = Some ys
             /\ progression start step stop ys.
Proof.
  intros Hstep.
  assert (Hne : ~ step == 0) by lra.
  eexists. split; [ apply arange_some; exact Hne | ].
  pose proof (arange_some start stop step Hne) as Har.
  set (ys := map _ _) in *.
  pose proof (arange_length _ _ _ _ Har) as Hlen.
  assert (Hq : (stop - start) / step * step == stop - start)
    by (field; exact Hne).
  split.
  - intros j Hj. rewrite (arange_nth _ _ _ _ _ Har Hj).
    split; [ reflexivity | ].
    rewrite Hlen in Hj. apply ceiling_above in Hj.
    assert (inject_Z (Z.of_nat j) * step < (stop - start) / step * step)
      by (apply Qmult_lt_compat_r; assumption).
    lra.
  - rewrite Hlen.
    pose proof (ceiling_below ((stop - start) / step)) as Hc.
    assert ((stop - start) / step * step
            <= inject_Z (Z.of_nat (Z.to_nat (Qceiling ((stop - start) / step)))) * step)
      by (apply Qmult_le_compat_r; [ exact Hc | lra ]).
    lra.
Qed.

(** ** The exclusion tests decide the exclusion predicates *)

Lemma is_inside_exclusion_iff (x y : Q) (zones : list circle_zone) :
  is_inside_exclusion x y zones = true
  <-> exists z, In z zones /\ in_circle (x, y) z.
Proof.
  unfold is_inside_exclusion. rewrite existsb_exists.
  split; intros [[[ex ey] er] [Hin H]]; exists (ex, ey, er); split; auto.
  - apply Qle_bool_iff in H. exact H.
  - apply Qle_bool_iff. exact H.
Qed.

Lemma is_inside_rects_iff (x y : Q) (rects : list rect_zone) :
  is_inside_rects x y rects = true
  <-> exists z, In z rects /\ in_rect (x, y) z.
Proof.
  unfold is_inside_rects. rewrite existsb_exists.
  split; intros [[[[rx ry] rw] rh] [Hin H]]; exists (rx, ry, rw, rh);
    split; auto.
  - rewrite !andb_true_iff, !Qle_bool_iff in H. simpl. tauto.
  - rewrite !andb_true_iff, !Qle_bool_iff. simpl in H. tauto.
Qed.

Lemma not_inside_exclusion_iff (x y : Q) (zones : list circle_zone) :
  is_inside_exclusion x y zones = false <-> outside_circles zones (x, y).
Proof.
  rewrite <- not_true_iff_false, is_inside_exclusion_iff.
  unfold outside_circles. firstorder.
Qed.

Lemma not_inside_rects_iff (x y : Q) (rects : list rect_zone) :
  is_inside_rects x y rects = false <-> outside_rects rects (x, y).
Proof.
  rewrite <- not_true_iff_false, is_inside_rects_iff.
  unfold outside_rects. firstorder.
Qed.

Lemma keep_iff (r ee : Q) (zones : list circle_zone) (rects : list rect_zone)
    (p : point) :
  keep r ee zones rects p = true <-> acceptable r ee zones rects p.
Proof.
  destruct p as [x y]. unfold keep, point_accepted, acceptable.
  cbv zeta. rewrite !andb_true_iff, !negb_true_iff, !Qle_bool_iff.
  rewrite not_inside_exclusion_iff, not_inside_rects_iff.
  unfold inside_wafer, inside_edge_boundary. simpl fst. simpl snd. tauto.
Qed.

(** ** The loops filter the candidates *)

Section LoopLemmas.

Variables r ee sy : Q.
Variable zones : list circle_zone.
Variable rects : list rect_zone.

Lemma for_y_filter (x : Q) (ys : list Q) (pts : list point) :
  for_y r ee zones rects x ys pts
  = pts ++ filter (keep r ee zones rects) (column x ys).
Proof.
  revert pts. induction ys as [ | y ys IH ]; intros pts; simpl.
  - now rewrite app_nil_r.
  - rewrite IH. unfold keep at 2. simpl fst. simpl snd.
    destruct (point_accepted r ee zones rects x y).
    + now rewrite <- app_assoc.
    + reflexivity.
Qed.

Lemma for_x_rect_filter (xs ys : list Q) (pts : list point) :
  for_x_rect r ee zones rects xs ys pts
  = pts ++ filter (keep r ee zones rects) (rect_candidates xs ys).
Proof.
  revert pts. induction xs as [ | x xs IH ]; intros pts; simpl.
  - now rewrite app_nil_r.
  - rewrite IH, for_y_filter, filter_app, app_assoc. reflexivity.
Qed.

Lemma for_x_hex_filter (i : nat) (xs : list Q) (pts : list point) :
  for_x_hex r ee sy zones rects i xs pts
  = (y_ranges <- hex_y_ranges r sy i xs ;;
     Some (pts ++ filter (keep r ee zones rects)
                         (hex_candidates xs y_ranges))).
Proof.
  revert i pts. induction xs as [ | x xs IH ]; intros i pts; simpl.
  - now rewrite app_nil_r.
  - destruct (arange (hex_y_start r sy i) r sy) as [ ys | ]; simpl;
      [ | reflexivity ].
    rewrite IH.
    destruct (hex_y_ranges r sy (S i) xs) as [ yss | ]; simpl;
      [ | reflexivity ].
    unfold hex_candidates. simpl.
    rewrite for_y_filter, filter_app, app_assoc. reflexivity.
Qed.

End LoopLemmas.

(** [compute_points] filters its candidate sequence by the guard and
    counts what is left. *)
Lemma compute_points_filter
    (d ee : Q) (gt : string) (sx sy : Q)
    (zones : list circle_zone) (rects : list rect_zone) :
  compute_points d ee gt sx sy zones rects
  = (cands <- candidates (d / 2) gt sx sy ;;
     Some (filter (keep (d / 2) ee zones rects) cands,
           List.length (filter (keep (d / 2) ee zones rects) cands))).
Proof.
  unfold compute_points, candidates. cbv zeta.
  destruct (String.eqb gt "Rectangular").
  - destruct (arange (- (d / 2) + sx / 2) (d / 2) sx) as [ xs | ]; simpl;
      [ | reflexivity ].
    destruct (arange (- (d / 2) + sy / 2) (d / 2) sy) as [ ys | ]; simpl;
      [ | reflexivity ].
    rewrite for_x_rect_filter. reflexivity.
  - destruct (arange (- (d / 2) + sx / 2) (d / 2) sx) as [ xs | ]; simpl;
      [ | reflexivity ].
    rewrite for_x_hex_filter.
    destruct (hex_y_ranges (d / 2) sy 0 xs) as [ yss | ]; simpl; reflexivity.
Qed.

(** With a non-zero [spacing_y], every column of the hexagonal loop gets
    its Y range. *)
Lemma hex_y_ranges_some (r sy : Q) (xs : list Q) (i : nat) :
  ~ sy == 0 ->
  exists yss,
    hex_y_ranges r sy i xs = Some yss
    /\ List.length yss = List.length xs
    /\ forall k, (k < List.length xs)%nat ->
                 arange (hex_y_start r sy (i + k)) r sy = Some (nth k yss []).
Proof.
  intros Hsy. revert i. induction xs as [ | x xs IH ]; intros i; simpl.
  - exists []. repeat split. intros k Hk. lia.
  - rewrite (arange_some _ _ _ Hsy). simpl.
    destruct (IH (S i)) as (yss & -> & Hlen & Hk). simpl.
    eexists. split; [ reflexivity | ]. split; [ simpl; now rewrite Hlen | ].
    intros [ | k ] Hlt; simpl.
    + rewrite Nat.add_0_r. apply arange_some. exact Hsy.
    + rewrite Nat.add_succ_r. apply Hk. lia.
Qed.

Lemma candidates_some (r : Q) (gt : string) (sx sy : Q) :
  ~ sx == 0 -> ~ sy == 0 -> exists cands, candidates r gt sx sy = Some cands.
Proof.
  intros Hsx Hsy. unfold candidates.
  rewrite (arange_some _ _ _ Hsx).
  destruct (String.eqb gt "Rectangular"); simpl.
  - rewrite (arange_some _ _ _ Hsy). simpl. eexists. reflexivity.
  - match goal with |- context [hex_y_ranges r sy 0 ?l] =>
      destruct (hex_y_ranges_some r sy l 0 Hsy) as (yss & -> & _) end.
    simpl. eexists. reflexivity.
Qed.

(** For valid inputs [compute_points] returns: the accepted points are the
    candidates that pass the guard. *)
Lemma compute_points_valid
    (d ee : Q) (gt : string) (sx sy : Q)
    (zones : list circle_zone) (rects : list rect_zone) :
  valid_input d ee sx sy ->
  exists cands,
    candidates (d / 2) gt sx sy = Some cands
    /\ compute_points d ee gt sx sy zones rects
       = Some (filter (keep (d / 2) ee zones rects) cands,
               List.length (filter (keep (d / 2) ee zones rects) cands)).
Proof.
  intros (_ & _ & Hsx & Hsy).
  destruct (candidates_some (d / 2) gt sx sy) as [cands Hc]; try lra.
  exists cands. split; [ exact Hc | ].
  rewrite compute_points_filter, Hc. reflexivity.
Qed.

(** ** Soundness *)



(** ** Completeness *)





#[export] Instance point_eq_Equivalence : Equivalence point_eq.
Proof.
  split.
  - intros p. split; reflexivity.
  - intros p q [Hx Hy]. split; symmetry; assumption.
  - intros p q t [Hx Hy] [Hx' Hy']. split; etransitivity; eassumption.
Qed.

(** The acceptance predicates do not tell equal points apart. *)
Lemma acceptable_point_eq (r ee : Q) (zones : list circle_zone)
    (rects : list rect_zone) (p q : point) :
  point_eq p q -> acceptable r ee zones rects p -> acceptable r ee zones rects q.
Proof.
  destruct p as [px py], q as [qx qy]. unfold point_eq. simpl.
  intros [Hx Hy] (Hw & He & Hc & Hr).
  unfold acceptable, inside_wafer, inside_edge_boundary,
    outside_circles, outside_rects in *. simpl in *.
  repeat split.
  - rewrite <- Hx, <- Hy. exact Hw.
  - rewrite <- Hx, <- Hy. exact He.
  - intros [[ex ey] er] Hin Hq. apply (Hc _ Hin). simpl in *.
    rewrite Hx, Hy. exact Hq.
  - intros [[[rx ry] rw] rh] Hin Hq. apply (Hr _ Hin). simpl in *.
    rewrite Hx, Hy. exact Hq.
Qed.

#[export] Instance acceptable_Proper (r ee : Q) (zones : list circle_zone)
    (rects : list rect_zone) :
  Proper (point_eq ==> iff) (acceptable r ee zones rects).
Proof.
  intros p q Hpq. split; apply acceptable_point_eq;
    [ exact Hpq | symmetry; exact Hpq ].
Qed.




(** ** Edge exclusion beyond the radius *)

(** The test [r2 <= (wafer_radius - edge_exclusion)**2] squares a negative
    number when the edge exclusion exceeds the radius: the bound is then
    the square of [edge_exclusion - wafer_radius], which is positive and
    grows with the edge exclusion. *)
Lemma edge_bound_beyond_radius (r ee : Q) (p : point) :
  inside_edge_boundary r ee p
  <-> fst p ^ 2 + snd p ^ 2 <= (ee - r) ^ 2.
Proof.
  unfold inside_edge_boundary.
  assert (E : (r - ee) ^ 2 == (ee - r) ^ 2) by (simpl; ring).
  rewrite E. reflexivity.
Qed.

(** C3.  At diameter 10, spacing 10 and edge exclusion 6 (radius 5) the
    rectangular grid has the single candidate (0, 0); [compute_points]
    returns it, with count 1: an edge exclusion strictly greater than the
    radius does not give an empty result. *)
Theorem edge_exclusion_beyond_radius_keeps_centre :
  10 / 2 < 6
  /\ valid_input 10 6 10 10
  /\ exists p,
       compute_points 10 6 Rectangular 10 10 [] [] = Some ([p], 1%nat)
       /\ point_eq p (0, 0).
Proof.
  split; [ reflexivity | ].
  split; [ unfold valid_input; repeat split; reflexivity || discriminate | ].
  eexists. split; [ vm_compute; reflexivity | ].
  split; reflexivity.
Qed.

(** C4.  At diameter 10 and spacing 5 the rectangular grid without zones
    has 0 points with edge exclusion 5 and 4 points with edge exclusion
    10: the count grows when the edge exclusion grows past the radius. *)
Theorem edge_exclusion_count_grows :
  5 <= 10
  /\ valid_input 10 5 5 5
  /\ valid_input 10 10 5 5
  /\ option_map snd (compute_points 10 5 Rectangular 5 5 [] [])
     = Some 0%nat
  /\ option_map snd (compute_points 10 10 Rectangular 5 5 [] [])
     = Some 4%nat.
Proof.
  split; [ discriminate | ].
  split; [ unfold valid_input; repeat split; reflexivity || discriminate | ].
  split; [ unfold valid_input; repeat split; reflexivity || discriminate | ].
  split; vm_compute; reflexivity.
Qed.

(** ** Subsequences and filters *)

Lemma subseq_refl {A : Type} (l : list A) : subseq l l.
Proof. induction l; [ apply subseq_nil | apply subseq_keep; assumption ]. Qed.

Lemma subseq_length {A : Type} (l1 l2 : list A) :
  subseq l1 l2 -> (List.length l1 <= List.length l2)%nat.
Proof. induction 1; simpl; lia. Qed.

Lemma subseq_In {A : Type} (l1 l2 : list A) (a : A) :
  subseq l1 l2 -> In a l1 -> In a l2.
Proof.
  induction 1; simpl; intros Hin; auto.
  destruct Hin as [ -> | Hin ]; auto.
Qed.

(** A stronger guard keeps a subsequence of what a weaker guard keeps. *)
Lemma filter_subseq {A : Type} (f g : A -> bool) (l : list A) :
  (forall a, In a l -> f a = true -> g a = true) ->
  subseq (filter f l) (filter g l).
Proof.
  induction l as [ | a l IH ]; intros Himp; simpl.
  - constructor.
  - assert (IH' : subseq (filter f l) (filter g l))
      by (apply IH; intros b Hb; apply Himp; right; exact Hb).
    destruct (f a) eqn:Ef.
    + rewrite (Himp a (or_introl eq_refl) Ef). apply subseq_keep. exact IH'.
    + destruct (g a); [ apply subseq_skip | ]; exact IH'.
Qed.

(** Two guards, one implying the other on the candidates: the results of
    [compute_points] are a sequence and a subsequence of it. *)
Lemma compute_points_subseq
    (d ee ee' : Q) (gt : string) (sx sy : Q)
    (zones zones' : list circle_zone) (rects rects' : list rect_zone) :
  valid_input d ee sx sy ->
  (forall p, acceptable (d / 2) ee' zones' rects' p ->
             acceptable (d / 2) ee zones rects p) ->
  exists points points',
    compute_points d ee gt sx sy zones rects
    = Some (points, List.length points)
    /\ compute_points d ee' gt sx sy zones' rects'
       = Some (points', List.length points')
    /\ subseq points' points.
Proof.
  intros Hv Himp.
  destruct (compute_points_valid d ee gt sx sy zones rects Hv)
    as (cands & Hc & Hcp).
  rewrite (compute_points_filter d ee'), Hc. simpl.
  do 2 eexists. split; [ exact Hcp | ]. split; [ reflexivity | ].
  apply filter_subseq. intros p _ Hk.
  apply keep_iff. apply Himp. apply keep_iff. exact Hk.
Qed.


(** ** Exclusion zones only remove points *)

Lemma outside_circles_incl (zones zones' : list circle_zone) (p : point) :
  incl zones zones' -> outside_circles zones' p -> outside_circles zones p.
Proof. unfold outside_circles. intros Hi H z Hz. apply H, Hi, Hz. Qed.

Lemma outside_rects_incl (rects rects' : list rect_zone) (p : point) :
  incl rects rects' -> outside_rects rects' p -> outside_rects rects p.
Proof. unfold outside_rects. intros Hi H z Hz. apply H, Hi, Hz. Qed.

Lemma incl_insert {A : Type} (l1 l2 : list A) (a : A) :
  incl (l1 ++ l2) (l1 ++ a :: l2).
Proof.
  intros b Hb. apply in_app_or in Hb. apply in_or_app.
  destruct Hb; [ left | right; right ]; assumption.
Qed.

(** With more zones of either kind, the result is a subsequence. *)
Lemma compute_points_more_zones
    (d ee : Q) (gt : string) (sx sy : Q)
    (zones zones' : list circle_zone) (rects rects' : list rect_zone) :
  valid_input d ee sx sy ->
  incl zones zones' -> incl rects rects' ->
  exists points points',
    compute_points d ee gt sx sy zones rects
    = Some (points, List.length points)
    /\ compute_points d ee gt sx sy zones' rects'
       = Some (points', List.length points')
    /\ subseq points' points
    /\ (List.length points' <= List.length points)%nat.
Proof.
  intros Hv Hz Hr.
  destruct (compute_points_subseq d ee ee gt sx sy zones zones' rects rects' Hv)
    as (p1 & p2 & H1 & H2 & Hs).
  - intros p (Hw & He & Hc & Hrc). repeat split; auto.
    + exact (outside_circles_incl _ _ _ Hz Hc).
    + exact (outside_rects_incl _ _ _ Hr Hrc).
  - exists p1, p2. repeat split; auto. apply subseq_length. exact Hs.
Qed.

(** C10.  For every valid input, inserting one more circular zone [c], or
    one more rectangular zone [r], anywhere in its zone sequence gives a
    result that is a subsequence of the result without it, with a count
    that is not larger: a zone never adds or reorders points. *)
Theorem compute_points_zone_monotone
    (d ee : Q) (gt : string) (sx sy : Q)
    (zones1 zones2 : list circle_zone) (rects1 rects2 : list rect_zone)
    (c : circle_zone) (r : rect_zone) :
  valid_input d ee sx sy ->
  exists points points_c points_r,
    compute_points d ee gt sx sy (zones1 ++ zones2) (rects1 ++ rects2)
    = Some (points, List.length points)
    /\ compute_points d ee gt sx sy (zones1 ++ c :: zones2) (rects1 ++ rects2)
       = Some (points_c, List.length points_c)
    /\ compute_points d ee gt sx sy (zones1 ++ zones2) (rects1 ++ r :: rects2)
       = Some (points_r, List.length points_r)
    /\ subseq points_c points
    /\ (List.length points_c <= List.length points)%nat
    /\ subseq points_r points
    /\ (List.length points_r <= List.length points)%nat.
Proof.
  intros Hv.
  destruct (compute_points_more_zones d ee gt sx sy
              (zones1 ++ zones2) (zones1 ++ c :: zones2)
              (rects1 ++ rects2) (rects1 ++ rects2) Hv)
    as (p & pc & Hp & Hpc & Hsc & Hlc);
    [ apply incl_insert | apply incl_refl | ].
  destruct (compute_points_more_zones d ee gt sx sy
              (zones1 ++ zones2) (zones1 ++ zones2)
              (rects1 ++ rects2) (rects1 ++ r :: rects2) Hv)
    as (p' & pr & Hp' & Hpr & Hsr & Hlr);
    [ apply incl_refl | apply incl_insert | ].
  rewrite Hp in Hp'. injection Hp' as <-.
  exists p, pc, pr. repeat split; assumption.
Qed.

Lemma compute_points_zone_monotone_witness :
  valid_input 10 0 5 5
  /\ exists points points_c points_r,
       compute_points 10 0 Rectangular 5 5 ([] ++ []) ([] ++ [])
       = Some (points, List.length points)
       /\ compute_points 10 0 Rectangular 5 5 ([] ++ [(3, 3, 1)]) ([] ++ [])
          = Some (points_c, List.length points_c)
       /\ compute_points 10 0 Rectangular 5 5 ([] ++ [])
                         ([] ++ [(-3, -3, 1, 1)])
          = Some (points_r, List.length points_r)
       /\ subseq points_c points
       /\ (List.length points_c <= List.length points)%nat
       /\ subseq points_r points
       /\ (List.length points_r <= List.length points)%nat.
Proof.
  assert (Hv : valid_input 10 0 5 5)
    by (unfold valid_input; repeat split; reflexivity || discriminate).
  split; [ exact Hv | ].
  exact (compute_points_zone_monotone 10 0 Rectangular 5 5 [] [] [] []
           (3, 3, 1) (-3, -3, 1, 1) Hv).
Defined.

(** ** Zone saturation *)





(** ** Rectangular zones *)


Lemma is_inside_rects_one (x y rx ry rw rh : Q) :
  is_inside_rects x y [(rx, ry, rw, rh)] = true
  <-> rx <= x /\ x <= rx + rw /\ ry <= y /\ y <= ry + rh.
Proof.
  rewrite is_inside_rects_iff. split.
  - intros (z & [ <- | [] ] & Hz). exact Hz.
  - intros H. exists (rx, ry, rw, rh). split; [ left; reflexivity | exact H ].
Qed.



(** ** The rectangles drawn on the canvas *)

(** C9.  A drawn pixel rectangle [(left, top, width, height)] gives the
    wafer-plane zone [x = left*diameter/canvasSize - radius],
    [w = width*diameter/canvasSize], [h = height*diameter/canvasSize],
    [y = diameter - top*diameter/canvasSize - h - radius], the canvas side
    being [CANVAS_SIZE = 400]; only the objects of type "rect" give a zone.
    At [left = 0], [top = 0], [width = 100], [height = 100] and diameter 80
    the zone is [(-40, 20, 20, 20)] and covers [-40, -20] x [20, 40]. *)
Theorem rect_zone_transform :
  (forall (d : Q) (ty : string) (left top width height : Q),
      let obj := {| obj_type := ty; obj_left := left; obj_top := top;
                    obj_width := width; obj_height := height |} in
      extract_rects d (Some [obj])
      = (if String.eqb ty "rect"
         then [spec_rect_transform CANVAS_SIZE d left top width height]
         else [])
      /\ rect_eq (rect_of_object d obj)
                 (left * d / 400 - d / 2,
                  d - top * d / 400 - height * d / 400 - d / 2,
                  width * d / 400,
                  height * d / 400))
  /\ (exists z,
         extract_rects 80
           (Some [ {| obj_type := "rect"; obj_left := 0; obj_top := 0;
                      obj_width := 100; obj_height := 100 |} ]) = [z]
         /\ rect_eq z (-40, 20, 20, 20)
         /\ forall x y,
              is_inside_rects x y [z] = true
              <-> (-40 <= x /\ x <= -20) /\ (20 <= y /\ y <= 40)).
Proof.
  split.
  - intros d ty left top width height obj. split.
    + unfold extract_rects. simpl.
      destruct (String.eqb ty "rect"); reflexivity.
    + unfold rect_of_object, rect_eq, CANVAS_SIZE. simpl.
      repeat split; reflexivity.
  - eexists. split; [ reflexivity | ]. split.
    + unfold rect_of_object, rect_eq, CANVAS_SIZE. simpl.
      repeat split; reflexivity.
    + intros x y. unfold rect_of_object, CANVAS_SIZE. cbv zeta.
      simpl obj_left. simpl obj_top. simpl obj_width. simpl obj_height.
      rewrite is_inside_rects_one.
      assert (E1 : 0 * 80 / 400 - 80 / 2 == -40) by reflexivity.
      assert (E2 : 100 * 80 / 400 == 20) by reflexivity.
      assert (E3 : 80 - 0 * 80 / 400 - 100 * 80 / 400 - 80 / 2 == 20)
        by reflexivity.
      rewrite E3, E1, E2. lra.
Qed.

(** ** The hexagonal grid *)





(** ** Central symmetry of the rectangular grid *)

#[export] Instance InQ_Proper : Proper (point_eq ==> eq ==> iff) InQ.
Proof.
  intros p q Hpq l l' <-. unfold InQ.
  split; intros (c & Hin & Hc); exists c; (split; [ exact Hin | ]).
  - rewrite <- Hpq. exact Hc.
  - rewrite Hpq. exact Hc.
Qed.






(** * More of the generator *)

(** ** The order of the result *)

Lemma StronglySorted_app {A : Type} (R : A -> A -> Prop) (l1 l2 : list A) :
  StronglySorted R l1 -> StronglySorted R l2 ->
  (forall a b, In a l1 -> In b l2 -> R a b) ->
  StronglySorted R (l1 ++ l2).
Proof.
  induction l1 as [ | a l1 IH ]; intros H1 H2 H12; simpl; [ exact H2 | ].
  apply StronglySorted_inv in H1. destruct H1 as [H1 Ha].
  constructor.
  - apply IH; auto. intros x y Hx Hy. apply H12; [ right | ]; assumption.
  - apply Forall_app. split; [ exact Ha | ].
    apply Forall_forall. intros y Hy. apply H12; [ left; reflexivity | exact Hy ].
Qed.

Lemma StronglySorted_filter {A : Type} (R : A -> A -> Prop) (f : A -> bool)
    (l : list A) :
  StronglySorted R l -> StronglySorted R (filter f l).
Proof.
  induction 1 as [ | a l Hs IH Ha ]; simpl; [ constructor | ].
  destruct (f a); [ | exact IH ].
  constructor; [ exact IH | ].
  apply Forall_forall. intros y Hy. apply filter_In in Hy.
  rewrite Forall_forall in Ha. apply Ha, Hy.
Qed.

(** The values of a range with a positive step increase strictly. *)
Lemma progression_map_sorted (start step : Q) (a n : nat) :
  0 < step ->
  StronglySorted Qlt
    (map (fun i : nat => start + inject_Z (Z.of_nat i) * step) (seq a n)).
Proof.
  intros Hstep. revert a. induction n as [ | n IH ]; intros a; simpl.
  - constructor.
  - constructor; [ apply IH | ].
    apply Forall_forall. intros v Hv. apply in_map_iff in Hv.
    destruct Hv as (j & <- & Hj). apply in_seq in Hj.
    assert (Hlt : inject_Z (Z.of_nat a) < inject_Z (Z.of_nat j))
      by (rewrite <- Zlt_Qlt; lia).
    assert (inject_Z (Z.of_nat a) * step < inject_Z (Z.of_nat j) * step)
      by (apply Qmult_lt_compat_r; assumption).
    lra.
Qed.

Lemma arange_sorted (start stop step : Q) (ys : list Q) :
  0 < step -> arange start stop step = Some ys -> StronglySorted Qlt ys.
Proof.
  intros Hstep Har. unfold arange in Har.
  destruct (Qeq_bool step 0); [ discriminate | ].
  injection Har as <-. apply progression_map_sorted. exact Hstep.
Qed.

Lemma column_sorted (x : Q) (ys : list Q) :
  StronglySorted Qlt ys -> StronglySorted lex_lt (column x ys).
Proof.
  unfold column. induction 1 as [ | y ys Hs IH Hy ]; simpl; constructor.
  - exact IH.
  - apply Forall_forall. intros p Hp. apply in_map_iff in Hp.
    destruct Hp as (y' & <- & Hy'). rewrite Forall_forall in Hy.
    right. simpl. split; [ reflexivity | apply Hy, Hy' ].
Qed.

Lemma column_fst (x : Q) (ys : list Q) (p : point) :
  In p (column x ys) -> fst p = x.
Proof.
  unfold column. intros Hp. apply in_map_iff in Hp.
  destruct Hp as (y & <- & _). reflexivity.
Qed.

Lemma rect_candidates_sorted (xs ys : list Q) :
  StronglySorted Qlt xs -> StronglySorted Qlt ys ->
  StronglySorted lex_lt (rect_candidates xs ys).
Proof.
  intros Hxs Hys. unfold rect_candidates.
  induction Hxs as [ | x xs Hs IH Hx ]; simpl; [ constructor | ].
  apply StronglySorted_app; [ apply column_sorted; exact Hys | exact IH | ].
  intros a b Ha Hb. apply in_flat_map in Hb. destruct Hb as (x' & Hx' & Hb).
  left. rewrite (column_fst _ _ _ Ha), (column_fst _ _ _ Hb).
  rewrite Forall_forall in Hx. apply Hx, Hx'.
Qed.

Lemma hex_candidates_sorted (xs : list Q) (yss : list (list Q)) :
  StronglySorted Qlt xs ->
  Forall (StronglySorted Qlt) yss ->
  StronglySorted lex_lt (hex_candidates xs yss).
Proof.
  intros Hxs. revert yss. unfold hex_candidates.
  induction Hxs as [ | x xs Hs IH Hx ]; intros yss Hyss; simpl;
    [ constructor | ].
  destruct yss as [ | ys yss ]; simpl; [ constructor | ].
  apply Forall_cons_iff in Hyss. destruct Hyss as [Hys Hyss].
  apply StronglySorted_app;
    [ apply column_sorted; exact Hys | apply IH; exact Hyss | ].
  intros a b Ha Hb. apply in_flat_map in Hb.
  destruct Hb as ([x' ys'] & Hc & Hb). simpl in Hb.
  apply in_combine_l in Hc.
  left. rewrite (column_fst _ _ _ Ha), (column_fst _ _ _ Hb).
  rewrite Forall_forall in Hx. apply Hx, Hc.
Qed.

Lemma hex_y_ranges_sorted (r sy : Q) (xs : list Q) (i : nat)
    (yss : list (list Q)) :
  0 < sy ->
  hex_y_ranges r sy i xs = Some yss -> Forall (StronglySorted Qlt) yss.
Proof.
  intros Hsy. revert i yss. induction xs as [ | x xs IH ]; intros i yss; simpl.
  - intros H. injection H as <-. constructor.
  - destruct (arange (hex_y_start r sy i) r sy) as [ ys | ] eqn:Hys; simpl;
      [ | discriminate ].
    destruct (hex_y_ranges r sy (S i) xs) as [ more | ] eqn:Hm; simpl;
      [ | discriminate ].
    intros H. injection H as <-. constructor.
    + exact (arange_sorted _ _ _ _ Hsy Hys).
    + exact (IH _ _ Hm).
Qed.

Lemma candidates_sorted (r : Q) (gt : string) (sx sy : Q)
    (cands : list point) :
  0 < sx -> 0 < sy ->
  candidates r gt sx sy = Some cands -> StronglySorted lex_lt cands.
Proof.
  intros Hsx Hsy. unfold candidates.
  destruct (arange (- r + sx / 2) r sx) as [ xs | ] eqn:Hxs; simpl;
    [ | destruct (String.eqb gt "Rectangular"); discriminate ].
  pose proof (arange_sorted _ _ _ _ Hsx Hxs) as Sx.
  destruct (String.eqb gt "Rectangular"); simpl.
  - destruct (arange (- r + sy / 2) r sy) as [ ys | ] eqn:Hys; simpl;
      [ | discriminate ].
    intros H. injection H as <-.
    apply rect_candidates_sorted; [ exact Sx | ].
    exact (arange_sorted _ _ _ _ Hsy Hys).
  - destruct (hex_y_ranges r sy 0 xs) as [ yss | ] eqn:Hyss; simpl;
      [ | discriminate ].
    intros H. injection H as <-.
    apply hex_candidates_sorted; [ exact Sx | ].
    exact (hex_y_ranges_sorted _ _ _ _ _ Hsy Hyss).
Qed.

Lemma lex_lt_not_eq (p q : point) : lex_lt p q -> ~ point_eq p q.
Proof.
  intros [ Hx | [Hx Hy] ] [Ex Ey]; lra.
Qed.

Lemma sorted_NoDupA (l : list point) :
  StronglySorted lex_lt l -> NoDupA point_eq l.
Proof.
  induction 1 as [ | p l Hs IH Hp ]; constructor; [ | exact IH ].
  intros Hin. apply InA_alt in Hin. destruct Hin as (q & Hpq & Hq).
  rewrite Forall_forall in Hp. exact (lex_lt_not_eq _ _ (Hp q Hq) Hpq).
Qed.

(** X1.  For every valid input, on either grid, the returned points are
    in strictly increasing order by [x], then by [y]; no point is returned
    twice. *)
Theorem compute_points_sorted
    (d ee : Q) (gt : string) (sx sy : Q)
    (zones : list circle_zone) (rects : list rect_zone) :
  valid_input d ee sx sy ->
  exists points,
    compute_points d ee gt sx sy zones rects
    = Some (points, List.length points)
    /\ StronglySorted lex_lt points
    /\ NoDupA point_eq points.
Proof.
  intros Hv.
  destruct (compute_points_valid d ee gt sx sy zones rects Hv)
    as (cands & Hc & Hcp).
  destruct Hv as (_ & _ & Hsx & Hsy).
  eexists. split; [ exact Hcp | ].
  assert (Hs : StronglySorted lex_lt
                 (filter (keep (d / 2) ee zones rects) cands))
    by (apply StronglySorted_filter;
        exact (candidates_sorted _ _ _ _ _ Hsx Hsy Hc)).
  split; [ exact Hs | exact (sorted_NoDupA _ Hs) ].
Qed.

Lemma compute_points_sorted_witness :
  valid_input 10 0 4 4
  /\ exists points,
       compute_points 10 0 Hexagonal 4 4 [(3, 3, 1)] []
       = Some (points, List.length points)
       /\ StronglySorted lex_lt points
       /\ NoDupA point_eq points.
Proof.
  assert (Hv : valid_input 10 0 4 4)
    by (unfold valid_input; repeat split; reflexivity || discriminate).
  split; [ exact Hv | ].
  exact (compute_points_sorted 10 0 Hexagonal 4 4 [(3, 3, 1)] [] Hv).
Defined.

(** ** What the result depends on *)

(** Two guards that agree give the same result, raised errors included. *)
Lemma compute_points_ext
    (d ee ee' : Q) (gt : string) (sx sy : Q)
    (zones zones' : list circle_zone) (rects rects' : list rect_zone) :
  (forall p, keep (d / 2) ee zones rects p = keep (d / 2) ee' zones' rects' p) ->
  compute_points d ee gt sx sy zones rects
  = compute_points d ee' gt sx sy zones' rects'.
Proof.
  intros Hk. rewrite !compute_points_filter.
  destruct (candidates (d / 2) gt sx sy) as [ cands | ]; simpl;
    [ | reflexivity ].
  rewrite (filter_ext _ _ Hk). reflexivity.
Qed.







(** ** When [compute_points] raises *)




(** ** Empty ranges and the size of the result *)

Lemma arange_empty (start stop step : Q) :
  0 < step -> stop <= start -> arange start stop step = Some [].
Proof.
  intros Hstep Hle.
  destruct (arange_progression start stop step Hstep) as (ys & Har & Hn & _).
  destruct ys as [ | y ys ]; [ exact Har | exfalso ].
  destruct (Hn 0%nat) as [E Hlt]; [ simpl; lia | ].
  change (nth 0 (y :: ys) 0) with y in E, Hlt.
  change (inject_Z (Z.of_nat 0)) with 0 in E. lra.
Qed.

Lemma rect_candidates_nil_r (xs : list Q) : rect_candidates xs [] = [].
Proof.
  unfold rect_candidates. induction xs; simpl; auto.
Qed.

Lemma hex_candidates_nil (xs : list Q) (yss : list (list Q)) :
  Forall (fun ys => ys = []) yss -> hex_candidates xs yss = [].
Proof.
  unfold hex_candidates. revert yss.
  induction xs as [ | x xs IH ]; intros yss Hy; simpl; [ reflexivity | ].
  destruct yss as [ | ys yss ]; simpl; [ reflexivity | ].
  apply Forall_cons_iff in Hy. destruct Hy as [-> Hy].
  simpl. apply IH. exact Hy.
Qed.

Lemma hex_y_start_lower (r sy : Q) (i : nat) :
  0 < sy -> - r + sy / 2 <= hex_y_start r sy i.
Proof.
  intros Hsy. unfold hex_y_start.
  destruct (i mod 2 =? 0)%nat; qhalf; lra.
Qed.

Lemma hex_y_ranges_empty (r sy : Q) (xs : list Q) (i : nat)
    (yss : list (list Q)) :
  0 < sy -> r <= - r + sy / 2 ->
  hex_y_ranges r sy i xs = Some yss -> Forall (fun ys => ys = []) yss.
Proof.
  intros Hsy Hr. revert i yss.
  induction xs as [ | x xs IH ]; intros i yss; simpl.
  - intros H. injection H as <-. constructor.
  - rewrite arange_empty;
      [ | exact Hsy | pose proof (hex_y_start_lower r sy i Hsy); lra ].
    simpl.
    destruct (hex_y_ranges r sy (S i) xs) as [ more | ] eqn:Hm; simpl;
      [ | discriminate ].
    intros H. injection H as <-. constructor; [ reflexivity | ].
    exact (IH _ _ Hm).
Qed.

(** X6.  For every valid input with a spacing, along X or along Y, of at
    least twice the diameter, no candidate is generated:
    [compute_points] returns the empty sequence and the count 0. *)
Theorem spacing_beyond_wafer
    (d ee : Q) (gt : string) (sx sy : Q)
    (zones : list circle_zone) (rects : list rect_zone) :
  valid_input d ee sx sy ->
  2 * d <= sx \/ 2 * d <= sy ->
  compute_points d ee gt sx sy zones rects = Some ([], 0%nat).
Proof.
  intros Hv Hbig.
  destruct (compute_points_valid d ee gt sx sy zones rects Hv)
    as (cands & Hc & Hcp).
  rewrite Hcp. destruct Hv as (Hd & _ & Hsx & Hsy).
  assert (Hnil : cands = []); [ | rewrite Hnil; reflexivity ].
  unfold candidates in Hc.
  destruct Hbig as [ Hx | Hy ].
  - rewrite arange_empty in Hc; [ | exact Hsx | qhalf; lra ].
    simpl in Hc. destruct (String.eqb gt "Rectangular"); simpl in Hc.
    + destruct (arange (- (d / 2) + sy / 2) (d / 2) sy); simpl in Hc;
        [ | discriminate ].
      injection Hc as <-. reflexivity.
    + injection Hc as <-. reflexivity.
  - assert (Hr : d / 2 <= - (d / 2) + sy / 2) by (qhalf; lra).
    destruct (arange (- (d / 2) + sx / 2) (d / 2) sx) as [ xs | ];
      [ simpl in Hc | destruct (String.eqb gt "Rectangular"); discriminate ].
    destruct (String.eqb gt "Rectangular"); simpl in Hc.
    + rewrite arange_empty in Hc; [ | exact Hsy | exact Hr ].
      simpl in Hc. injection Hc as <-. apply rect_candidates_nil_r.
    + destruct (hex_y_ranges (d / 2) sy 0 xs) as [ yss | ] eqn:Hyss;
        simpl in Hc; [ | discriminate ].
      injection Hc as <-. apply hex_candidates_nil.
      exact (hex_y_ranges_empty _ _ _ _ _ Hsy Hr Hyss).
Qed.

Lemma spacing_beyond_wafer_witness :
  valid_input 10 0 4 20
  /\ (2 * 10 <= 4 \/ 2 * 10 <= 20)
  /\ compute_points 10 0 Hexagonal 4 20 [] [] = Some ([], 0%nat).
Proof.
  assert (Hv : valid_input 10 0 4 20)
    by (unfold valid_input; repeat split; reflexivity || discriminate).
  assert (Hb : 2 * 10 <= 4 \/ 2 * 10 <= 20) by (right; discriminate).
  split; [ exact Hv | ]. split; [ exact Hb | ].
  exact (spacing_beyond_wafer 10 0 Hexagonal 4 20 [] [] Hv Hb).
Defined.











(** ** The callers: the estimate and the canvas background *)

Lemma total_time_monotone (n n' : nat) (mt mv : Q) :
  (n' <= n)%nat -> 0 <= mt + mv -> total_time n' mt mv <= total_time n mt mv.
Proof.
  intros Hn Ht. unfold total_time.
  apply Qmult_le_compat_r; [ | exact Ht ].
  rewrite <- Zle_Qle. lia.
Qed.

(** X8.  For every valid input and times per point whose sum is not
    negative, the estimate with more exclusion zones (every zone of the
    first input is a zone of the second) shows no more points and no more
    total time. *)
Theorem estimate_more_zones
    (d ee : Q) (gt : string) (sx sy mt mv : Q)
    (zones zones' : list circle_zone) (rects rects' : list rect_zone) :
  valid_input d ee sx sy ->
  0 <= mt + mv ->
  incl zones zones' -> incl rects rects' ->
  exists n t n' t',
    estimate d ee gt sx sy mt mv zones rects = Some (n, t)
    /\ estimate d ee gt sx sy mt mv zones' rects' = Some (n', t')
    /\ (n' <= n)%nat
    /\ t' <= t
    /\ 0 <= t'.
Proof.
  intros Hv Ht Hz Hr.
  destruct (compute_points_more_zones d ee gt sx sy zones zones' rects rects'
              Hv Hz Hr) as (p & p' & Hp & Hp' & _ & Hlen).
  unfold estimate. rewrite Hp, Hp'. simpl.
  do 4 eexists. split; [ reflexivity | ]. split; [ reflexivity | ].
  split; [ exact Hlen | ].
  split; [ apply total_time_monotone; assumption | ].
  unfold total_time. apply Qmult_le_0_compat; [ | exact Ht ].
  apply inject_Z_of_nat_nonneg.
Qed.

Lemma estimate_more_zones_witness :
  valid_input 10 0 5 5
  /\ 0 <= 10 + 1
  /\ incl (A := circle_zone) [] [(3, 3, 1)]
  /\ incl (A := rect_zone) [] [(-3, -3, 1, 1)]
  /\ exists n t n' t',
       estimate 10 0 Rectangular 5 5 10 1 [] [] = Some (n, t)
       /\ estimate 10 0 Rectangular 5 5 10 1 [(3, 3, 1)] [(-3, -3, 1, 1)]
          = Some (n', t')
       /\ (n' <= n)%nat
       /\ t' <= t
       /\ 0 <= t'.
Proof.
  assert (Hv : valid_input 10 0 5 5)
    by (unfold valid_input; repeat split; reflexivity || discriminate).
  assert (Ht : 0 <= 10 + 1) by discriminate.
  assert (Hz : incl (A := circle_zone) [] [(3, 3, 1)]) by (intros z []).
  assert (Hr : incl (A := rect_zone) [] [(-3, -3, 1, 1)]) by (intros z []).
  split; [ exact Hv | ]. split; [ exact Ht | ].
  split; [ exact Hz | ]. split; [ exact Hr | ].
  exact (estimate_more_zones 10 0 Rectangular 5 5 10 1 _ _ _ _ Hv Ht Hz Hr).
Defined.

Lemma filter_filter_andb {A : Type} (f g : A -> bool) (l : list A) :
  filter f (filter g l) = filter (fun a => g a && f a) l.
Proof.
  induction l as [ | a l IH ]; simpl; [ reflexivity | ].
  destruct (g a); simpl; [ | exact IH ].
  destruct (f a); rewrite IH; reflexivity.
Qed.

(** X9.  The points of the final map are the points drawn on the canvas
    background that no rectangle contains, in the same order: calling
    [compute_points] with the rectangles is filtering, by
    [is_inside_rects], what it returns without them; both raise
    together. *)
Theorem compute_points_from_background
    (d ee : Q) (gt : string) (sx sy : Q)
    (zones : list circle_zone) (rects : list rect_zone) :
  compute_points d ee gt sx sy zones rects
  = (bg <- points_for_bg d ee gt sx sy zones ;;
     let points :=
       filter (fun p => negb (is_inside_rects (fst p) (snd p) rects)) bg in
     Some (points, List.length points)).
Proof.
  unfold points_for_bg. rewrite !compute_points_filter.
  destruct (candidates (d / 2) gt sx sy) as [ cands | ]; simpl;
    [ | reflexivity ].
  rewrite filter_filter_andb.
  assert (E : forall p,
             keep (d / 2) ee zones rects p
             = keep (d / 2) ee zones [] p
               && negb (is_inside_rects (fst p) (snd p) rects)).
  { intros p. unfold keep, point_accepted. cbv zeta. simpl is_inside_rects.
    simpl negb. rewrite andb_true_r. reflexivity. }
  rewrite (filter_ext _ _ E). reflexivity.
Qed.

(** ** Circular zones with a negative radius *)

Lemma is_inside_exclusion_flip (x y : Q) (zones : list circle_zone) :
  is_inside_exclusion x y (map flip_radius zones)
  = is_inside_exclusion x y zones.
Proof.
  induction zones as [ | [[ex ey] er] zones IH ]; [ reflexivity | ].
  change (is_inside_exclusion x y (map flip_radius ((ex, ey, er) :: zones)))
    with (Qle_bool ((x - ex) ^ 2 + (y - ey) ^ 2) ((- er) ^ 2)
          || is_inside_exclusion x y (map flip_radius zones)).
  change (is_inside_exclusion x y ((ex, ey, er) :: zones))
    with (Qle_bool ((x - ex) ^ 2 + (y - ey) ^ 2) (er ^ 2)
          || is_inside_exclusion x y zones).
  rewrite IH. f_equal. apply Qleb_comp; [ reflexivity | simpl; ring ].
Qed.

(** X10.  Only the square of a zone radius is used: changing the sign of
    the radius of every circular zone changes nothing in the result, so a
    zone with radius [-er] excludes what the zone with radius [er]
    excludes. *)
Theorem compute_points_radius_sign
    (d ee : Q) (gt : string) (sx sy : Q)
    (zones : list circle_zone) (rects : list rect_zone) :
  compute_points d ee gt sx sy (map flip_radius zones) rects
  = compute_points d ee gt sx sy zones rects.
Proof.
  apply compute_points_ext. intros p.
  unfold keep, point_accepted. cbv zeta.
  rewrite is_inside_exclusion_flip. reflexivity.
Qed.

(** ** The zones drawn on the canvas *)









(** ** Edge exclusion within the radius *)



(** ** Growing a zone *)

(** X15.  For every valid input, enlarging one circular zone (same
    centre, radius from [er >= 0] up to [er']) and one rectangular zone
    (same corner, width and height not smaller) gives a subsequence of the
    result, with a count that is not larger. *)
Theorem zone_growth
    (d ee : Q) (gt : string) (sx sy : Q)
    (zones1 zones2 : list circle_zone) (rects1 rects2 : list rect_zone)
    (ex ey er er' rx ry rw rh rw' rh' : Q) :
  valid_input d ee sx sy ->
  0 <= er -> er <= er' -> rw <= rw' -> rh <= rh' ->
  exists points points',
    compute_points d ee gt sx sy
      (zones1 ++ (ex, ey, er) :: zones2) (rects1 ++ (rx, ry, rw, rh) :: rects2)
    = Some (points, List.length points)
    /\ compute_points d ee gt sx sy
         (zones1 ++ (ex, ey, er') :: zones2)
         (rects1 ++ (rx, ry, rw', rh') :: rects2)
       = Some (points', List.length points')
    /\ subseq points' points
    /\ (List.length points' <= List.length points)%nat.
Proof.
  intros Hv Her0 Her Hrw Hrh.
  destruct (compute_points_subseq d ee ee gt sx sy
              (zones1 ++ (ex, ey, er) :: zones2)
              (zones1 ++ (ex, ey, er') :: zones2)
              (rects1 ++ (rx, ry, rw, rh) :: rects2)
              (rects1 ++ (rx, ry, rw', rh') :: rects2) Hv)
    as (p1 & p2 & H1 & H2 & Hs).
  - intros p (Hw & He & Hc & Hr). repeat split; auto.
    + intros z Hin Hz. apply in_app_or in Hin.
      destruct Hin as [ Hin | [ <- | Hin ] ].
      * apply (Hc z); [ apply in_or_app; left; exact Hin | exact Hz ].
      * apply (Hc (ex, ey, er')); [ apply in_elt | ].
        unfold in_circle in *. nra.
      * apply (Hc z); [ apply in_or_app; right; right; exact Hin | exact Hz ].
    + intros z Hin Hz. apply in_app_or in Hin.
      destruct Hin as [ Hin | [ <- | Hin ] ].
      * apply (Hr z); [ apply in_or_app; left; exact Hin | exact Hz ].
      * apply (Hr (rx, ry, rw', rh')); [ apply in_elt | ].
        unfold in_rect in *. repeat split; lra.
      * apply (Hr z); [ apply in_or_app; right; right; exact Hin | exact Hz ].
  - exists p1, p2. repeat split; auto. apply subseq_length. exact Hs.
Qed.

Lemma zone_growth_witness :
  valid_input 10 0 2 2
  /\ 0 <= 1 /\ 1 <= 2 /\ 1 <= 3 /\ 1 <= 1
  /\ exists points points',
       compute_points 10 0 Rectangular 2 2
         ([] ++ [(3, 3, 1)]) ([] ++ [(-3, -3, 1, 1)])
       = Some (points, List.length points)
       /\ compute_points 10 0 Rectangular 2 2
            ([] ++ [(3, 3, 2)]) ([] ++ [(-3, -3, 3, 1)])
          = Some (points', List.length points')
       /\ subseq points' points
       /\ (List.length points' <= List.length points)%nat.
Proof.
  assert (Hv : valid_input 10 0 2 2)
    by (unfold valid_input; repeat split; reflexivity || discriminate).
  assert (H0 : 0 <= 1) by discriminate.
  assert (H1 : 1 <= 2) by discriminate.
  assert (H2 : 1 <= 3) by discriminate.
  assert (H3 : 1 <= 1) by discriminate.
  split; [ exact Hv | ]. split; [ exact H0 | ]. split; [ exact H1 | ].
  split; [ exact H2 | ]. split; [ exact H3 | ].
  exact (zone_growth 10 0 Rectangular 2 2 [] [] [] []
           3 3 1 2 (-3) (-3) 1 1 3 1 Hv H0 H1 H2 H3).
Defined.

(** ** Mirror images of the rectangular grid *)





(** ** A change of unit *)













